(** * Fractal-Midi: a shallow embedding of [script.py]

    The script turns a monophonic melody into a self-similar track: every
    note is replaced by a time-scaled, repeated copy of the whole melody.
    This file embeds the functions of [script.py] and states the properties
    of the specification about them.

    Conventions of the embedding.
    - Python [int] values are [Z].  Ticks, pitches, velocities and the
      resolution of a track read from a MIDI file are integers.
    - Python [float] values live in a type [F] with the operations of the
      class [FloatArith]; nothing is assumed about rounding, so the generic
      theorems hold for every arithmetic, IEEE doubles included.  A concrete
      instance over the rationals ([Qc], no rounding) is used to evaluate
      the program on examples.
    - A Python call either returns a value or raises: [result A].
    - A generator yields finitely many items and then either stops or
      raises: [Generator A]. *)

From Stdlib Require Import ZArith QArith Qcanon Qround Sorted Lia.
From stdpp Require Import base numbers list.

Local Open Scope Z_scope.

(** ** Exceptions and results *)

(** The exceptions a run of the script can end in.  [EmptyMelodyError] is
    the name the specification gives to the failure of an empty melody; no
    statement of [script.py] raises it.  [OverflowError] is what Python's
    [float ** int] raises when the power is too large for a float. *)
Inductive exn : Type :=
| IndexError
| TypeError
| ZeroDivisionError
| EmptyMelodyError
| OverflowError.

Inductive result (A : Type) : Type :=
| Ok (a : A)
| Raise (e : exn).

Arguments Ok {A} a.
Arguments Raise {A} e.

Definition bind {A B : Type} (r : result A) (k : A -> result B) : result B :=
  match r with
  | Ok a => k a
  | Raise e => Raise e
  end.

Notation "'let!' x ':=' r 'in' k" := (bind r (fun x => k))
  (at level 10, x name, r at level 100, k at level 200).

(** A generator run to exhaustion: the items it yields, in order, and the
    exception that ends the iteration, if any. *)
Definition Generator (A : Type) : Type := (list A * option exn)%type.

(** ** Events and tracks (mydy.Events, mydy.Containers) *)

(** Modelled from the spec: the event classes of [mydy.Events], which are not
    part of this repository.  Section 3 of the specification gives the four
    variants and their fields; [T] is the type of the tick. *)
Inductive Event (T : Type) : Type :=
| NoteOnEvent (tick : T) (pitch velocity : Z)
| NoteOffEvent (tick : T) (pitch velocity : Z)
| MetaEvent (tick : T) (kind : Z) (payload : list Z)
| EndOfTrackEvent (tick : T).

Arguments NoteOnEvent {T} tick pitch velocity.
Arguments NoteOffEvent {T} tick pitch velocity.
Arguments MetaEvent {T} tick kind payload.
Arguments EndOfTrackEvent {T} tick.

Section Events.
Context {T : Type}.

(** [event.tick] *)
Definition tick (e : Event T) : T :=
  match e with
  | NoteOnEvent t _ _ | NoteOffEvent t _ _ | MetaEvent t _ _
  | EndOfTrackEvent t => t
  end.

(** [isinstance(event, Events.NoteOnEvent)] *)
Definition is_NoteOn (e : Event T) : bool :=
  match e with NoteOnEvent _ _ _ => true | _ => false end.

(** [isinstance(event, Events.MetaEvent)] *)
Definition is_Meta (e : Event T) : bool :=
  match e with MetaEvent _ _ _ => true | _ => false end.

(** [isinstance(event, Events.EndOfTrackEvent)] *)
Definition is_EndOfTrack (e : Event T) : bool :=
  match e with EndOfTrackEvent _ => true | _ => false end.

(** A NoteOn event whose velocity is 0. *)
Definition is_silent_NoteOn (e : Event T) : bool :=
  match e with NoteOnEvent _ _ v => v =? 0 | _ => false end.
End Events.

(** [event.tick = t], as a value: the same event at another tick (of another
    type of tick, when an integer tick becomes a float). *)
Definition set_tick {T U : Type} (e : Event T) (t : U) : Event U :=
  match e with
  | NoteOnEvent _ p v => NoteOnEvent t p v
  | NoteOffEvent _ p v => NoteOffEvent t p v
  | MetaEvent _ k d => MetaEvent t k d
  | EndOfTrackEvent _ => EndOfTrackEvent t
  end.

(** Modelled from the spec: [mydy.Containers.Track], an ordered sequence of
    events and the mode of their ticks ([relative = True]: each tick is the
    delta since the previous event; [False]: ticks count from the start). *)
Record Track (T : Type) : Type := mkTrack {
  events : list (Event T);
  relative : bool
}.

Arguments mkTrack {T} events relative.
Arguments events {T} t.
Arguments relative {T} t.

(** What the mode conversions and [length] need of a tick. *)
Class TickArith (T : Type) : Type := {
  tzero : T;
  tadd : T -> T -> T;
  tsub : T -> T -> T
}.

#[export] Instance Z_TickArith : TickArith Z :=
  {| tzero := 0; tadd := Z.add; tsub := Z.sub |}.

Section Tracks.
Context {T : Type} `{TickArith T}.

Fixpoint abs_from (running : T) (es : list (Event T)) : list (Event T) :=
  match es with
  | [] => []
  | e :: es' =>
      let t := tadd running (tick e) in
      set_tick e t :: abs_from t es'
  end.

Fixpoint rel_from (running : T) (es : list (Event T)) : list (Event T) :=
  match es with
  | [] => []
  | e :: es' => set_tick e (tsub (tick e) running) :: rel_from (tick e) es'
  end.

(** Modelled from the spec: [Track.make_ticks_abs], the conversion of a
    track to absolute ticks (running sums of the deltas); a track that is
    absolute already is returned as it is. *)
Definition make_ticks_abs (t : Track T) : Track T :=
  if relative t then mkTrack (abs_from tzero (events t)) false else t.

(** Modelled from the spec: [Track.make_ticks_rel], the conversion of a
    track to relative ticks (differences of consecutive absolute ticks); a
    track that is relative already is returned as it is. *)
Definition make_ticks_rel (t : Track T) : Track T :=
  if relative t then t else mkTrack (rel_from tzero (events t)) true.

(** Modelled from the spec: [Track.length], the sum of the deltas of a
    relative track and the tick of the last event of an absolute one (0 for
    a track without events). *)
Definition track_length (t : Track T) : T :=
  if relative t then foldl tadd tzero (tick <$> events t)
  else from_option tick tzero (last (events t)).
End Tracks.

(** ** The functions of script.py on integer-tick tracks *)

(** [get_root]: the pitch of the first NoteOn event; the loop falls through
    and the function returns [None] when there is none. *)
Fixpoint get_root_loop {T : Type} (es : list (Event T)) : option Z :=
  match es with
  | [] => None
  | NoteOnEvent _ pitch _ :: _ => Some pitch
  | _ :: es' => get_root_loop es'
  end.

Definition get_root {T : Type} (track : Track T) : option Z :=
  get_root_loop (events track).

(** [get_note_info]: one [(pitch, duration, tick)] per NoteOn event, the
    duration being the tick of the event at the next index; [track[i+1]]
    raises [IndexError] when the NoteOn is the last event. *)
Fixpoint get_note_info_loop (track : Track Z) (i : nat)
    (rest : list (Event Z)) : Generator (Z * Z * Z) :=
  match rest with
  | [] => ([], None)
  | NoteOnEvent tk pitch _ :: rest' =>
      match events track !! (i + 1)%nat with
      | None => ([], Some IndexError)
      | Some next =>
          let '(ys, e) := get_note_info_loop track (S i) rest' in
          ((pitch, tick next, tk) :: ys, e)
      end
  | _ :: rest' => get_note_info_loop track (S i) rest'
  end.

Definition get_note_info (track : Track Z) : Generator (Z * Z * Z) :=
  get_note_info_loop track 0 (events track).

(** [fix_mary]: a NoteOn event of velocity 0 becomes a NoteOff event with
    the same tick, pitch and velocity; every other event is appended as it
    is. *)
Definition fix_event {T : Type} (event : Event T) : Event T :=
  match event with
  | NoteOnEvent tk pitch velocity =>
      if velocity =? 0 then NoteOffEvent tk pitch velocity else event
  | _ => event
  end.

Fixpoint fix_mary_loop {T : Type} (es : list (Event T)) : list (Event T) :=
  match es with
  | [] => []
  | event :: es' => fix_event event :: fix_mary_loop es'
  end.

Definition fix_mary {T : Type} (track : Track T) : Track T :=
  mkTrack (fix_mary_loop (events track)) (relative track).

(** [split_header_meta_events]: the index of the first event that is not a
    MetaEvent splits the track; when there is none the function returns an
    empty track and the whole track. *)
Fixpoint first_non_meta {T : Type} (i : nat) (es : list (Event T)) : option nat :=
  match es with
  | [] => None
  | event :: es' => if is_Meta event then first_non_meta (S i) es' else Some i
  end.

Definition split_header_meta_events {T : Type} (track : Track T)
    : Track T * Track T :=
  match first_non_meta 0 (events track) with
  | Some i =>
      (mkTrack (take i (events track)) (relative track),
       mkTrack (drop i (events track)) (relative track))
  | None => (mkTrack [] (relative track), track)
  end.

(** Python's [sorted(xs, key=...)] is a stable sort; a stable sort is
    determined by its key, and insertion in front of the first element with
    a key at least as large is one. *)
Fixpoint insert_by_key {A : Type} (key : A -> Z) (x : A) (l : list A) : list A :=
  match l with
  | [] => [x]
  | y :: l' =>
      if key x <=? key y then x :: y :: l' else y :: insert_by_key key x l'
  end.

Definition sorted {A : Type} (key : A -> Z) (l : list A) : list A :=
  foldr (insert_by_key key) [] l.

(** The key of [sort_ticks]: [e.tick * 10 + isinstance(e, NoteOnEvent)]. *)
Definition sort_key (e : Event Z) : Z := tick e * 10 + Z.b2z (is_NoteOn e).

Definition sort_ticks (track : Track Z) : Track Z :=
  let track1 := make_ticks_abs track in
  let events1 := sorted sort_key (events track1) in
  let track2 := mkTrack events1 false in
  make_ticks_rel track2.

(** ** Float arithmetic *)

(** The operations of Python's [float] the script uses.  [fdiv] is the
    quotient by a divisor that is not zero: the division operators below
    raise [ZeroDivisionError] before they would call it on zero.
    [twelve_root_two] is the value of the module constant [2 ** (1 / 12)].
    [fpow x n] is the outcome of [x ** n] for an integer [n]: the power, or
    [None] when Python raises [OverflowError] because the power is out of
    the range of a float. *)
Class FloatArith (F : Type) : Type := {
  of_int : Z -> F;
  fadd : F -> F -> F;
  fsub : F -> F -> F;
  fmul : F -> F -> F;
  fdiv : F -> F -> F;
  fis_zero : F -> bool;
  fltb : F -> F -> bool;
  ffloor : F -> Z;
  fpow : F -> Z -> option F;
  twelve_root_two : F
}.

#[export] Instance Float_TickArith {F : Type} `{FloatArith F} : TickArith F :=
  {| tzero := of_int 0; tadd := fadd; tsub := fsub |}.

Fixpoint take_while {A : Type} (p : A -> bool) (l : list A) : list A :=
  match l with
  | [] => []
  | x :: l' => if p x then x :: take_while p l' else []
  end.

Section Fractal.
Context {F : Type} `{FloatArith F}.

(** [a / b] on ints: true division, a float. *)
Definition int_truediv (a b : Z) : result F :=
  if b =? 0 then Raise ZeroDivisionError else Ok (fdiv (of_int a) (of_int b)).

Definition TWELVE_ROOT_TWO : F := twelve_root_two.
Definition Q_NOTE_PHRASE_LEN : Z := 16.

(** [get_ratio]: [root] is what [get_root] returned; [pitch - None] raises
    [TypeError], and the power raises [OverflowError] when it is out of
    range. *)
Definition get_ratio (root : option Z) (pitch : Z) : result F :=
  match root with
  | None => Raise TypeError
  | Some root =>
      let difference := pitch - root in
      match fpow TWELVE_ROOT_TWO difference with
      | Some ratio => Ok ratio
      | None => Raise OverflowError
      end
  end.

(** An integer tick taking part in float arithmetic. *)
Definition float_event (e : Event Z) : Event F := set_tick e (of_int (tick e)).

Definition float_track (t : Track Z) : Track F :=
  mkTrack (float_event <$> events t) (relative t).

(** The events of a track, every tick moved by [d]. *)
Definition shift (d : F) (es : list (Event F)) : list (Event F) :=
  (fun e => set_tick e (fadd (tick e) d)) <$> es.

(** Modelled from the spec: the Track Scaler of mydy (section 4.3): the
    same events in the same order and mode, every tick divided by [ratio]. *)
Definition scale (t : Track F) (ratio : F) : Track F :=
  mkTrack ((fun e => set_tick e (fdiv (tick e) ratio)) <$> events t) (relative t).

(** Modelled from the spec: [track / ratio], the Track Scaler called from
    Python.  The specification names no failure of the scaler; the model
    takes the division of a tick by zero to raise as a division of Python
    numbers does, with [ZeroDivisionError], and a track without events to
    have no tick to divide. *)
Definition track_truediv (t : Track F) (ratio : F) : result (Track F) :=
  match events t with
  | [] => Ok t
  | _ :: _ =>
      if fis_zero ratio then Raise ZeroDivisionError else Ok (scale t ratio)
  end.

(** Modelled from the spec: the Track Repeater [track ** n] of mydy
    (section 4.4).  With [k = floor n] and [f = n - k]: [k] copies of the
    track, copy [i] rebased by [i * length]; then, when [f > 0], the
    leading events whose absolute tick is below [f * length], rebased by
    [k * length].  The result is in the mode of [track].  The model follows
    these construction sentences of section 4.4 and nothing else of it. *)
Definition repeat_events (t : Track F) (n : F) : list (Event F) :=
  let k := ffloor n in
  let f := fsub n (of_int k) in
  let len := track_length t in
  let es := events (make_ticks_abs t) in
  let full := concat ((fun i => shift (fmul (of_int i) len) es) <$> seqZ 0 k) in
  let part :=
    if fltb (of_int 0) f
    then shift (fmul (of_int k) len)
           (take_while (fun e => fltb (tick e) (fmul f len)) es)
    else [] in
  full ++ part.

Definition track_pow (t : Track F) (n : F) : Track F :=
  let r := mkTrack (repeat_events t n) false in
  if relative t then make_ticks_rel r else r.

(** Modelled from the spec: the concatenation [x + y] of mydy (section
    4.6, step 7): the events of [y] appended to those of [x], rebased by
    the length of [x]; on relative tracks the deltas are appended. *)
Definition track_add (x y : Track F) : Track F :=
  if relative x
  then mkTrack (events x ++ events (make_ticks_rel y)) true
  else mkTrack (events x ++ shift (track_length x) (events (make_ticks_abs y))) false.

(** [track[-1]] *)
Definition getitem_last {T : Type} (t : Track T) : result (Event T) :=
  match last (events t) with
  | Some e => Ok e
  | None => Raise IndexError
  end.

(** [track[:-1]] *)
Definition slice_init {T : Type} (t : Track T) : Track T :=
  mkTrack (removelast (events t)) (relative t).

(** [fract[0].tick = v] *)
Definition set_first_tick (t : Track F) (v : F) : result (Track F) :=
  match events t with
  | [] => Raise IndexError
  | e :: es => Ok (mkTrack (set_tick e v :: es) (relative t))
  end.

(** [fractal.append(endevent)] *)
Definition append (t : Track F) (e : Event F) : Track F :=
  mkTrack (events t ++ [e]) (relative t).

Definition fractalize_note (resolution : Z) (ratio_fn : Z -> result F)
    (track : Track Z) (note_info : Z * Z * Z) : result (Track F) :=
  let '(pitch, duration, tk) := note_info in
  let! quarter_notes := int_truediv duration resolution in
  let! ratio := ratio_fn pitch in
  let repetitions := fmul (fmul (of_int Q_NOTE_PHRASE_LEN) quarter_notes) ratio in
  let! scaled := track_truediv (float_track track) ratio in
  let fract := track_pow scaled repetitions in
  let! onset := int_truediv tk resolution in
  let position :=
    fmul (fmul onset (of_int (track_length track))) (of_int Q_NOTE_PHRASE_LEN) in
  set_first_tick fract position.

(** [reduce(lambda x, y: x + y, (f_note(note) for note in note_tuples))]:
    the items are computed as the generator yields them; an exhausted
    generator that gave no item makes [reduce] raise [TypeError]. *)
Fixpoint reduce_loop (f_note : Z * Z * Z -> result (Track F))
    (acc : Track F) (notes : list (Z * Z * Z)) (stop : option exn)
    : result (Track F) :=
  match notes with
  | [] => match stop with Some e => Raise e | None => Ok acc end
  | note :: notes' =>
      let! y := f_note note in
      reduce_loop f_note (track_add acc y) notes' stop
  end.

Definition reduce_add (f_note : Z * Z * Z -> result (Track F))
    (note_tuples : Generator (Z * Z * Z)) : result (Track F) :=
  match note_tuples with
  | ([], Some e) => Raise e
  | ([], None) => Raise TypeError
  | (note :: notes', stop) =>
      let! x := f_note note in
      reduce_loop f_note x notes' stop
  end.

Definition fractalize_track (resolution : Z) (track : Track Z)
    : result (Track F) :=
  let track := sort_ticks track in
  let root := get_root track in
  let note_tuples := get_note_info track in
  let '(header, track) := split_header_meta_events track in
  let! last_event := getitem_last track in
  let '(endevent, track) :=
    if is_EndOfTrack last_event
    then (Some last_event, slice_init track)
    else (None, track) in
  let ratio_wrt_root := fun pitch => get_ratio root pitch in
  let f_note := fun note_tuple =>
    fractalize_note resolution ratio_wrt_root track note_tuple in
  let! fractal := reduce_add f_note note_tuples in
  let fractal :=
    match endevent with
    | Some e => append fractal (float_event e)
    | None => fractal
    end in
  let! quarters := int_truediv (track_length track) resolution in
  let! fractal :=
    track_truediv fractal (fmul quarters (of_int Q_NOTE_PHRASE_LEN)) in
  Ok (track_add (float_track header) fractal).

(** The driver under [if __name__ == '__main__'], between reading the file
    and writing the result: the first track goes through [fix_mary] and
    then through [fractalize_track]. *)
Definition main (resolution : Z) (first_track : Track Z) : result (Track F) :=
  let sotw_track := fix_mary first_track in
  fractalize_track resolution sotw_track.
End Fractal.

(** ** Exact rational arithmetic as an instance *)

Definition Qc_pow (x : Qc) (n : Z) : Qc :=
  if n <? 0 then (/ Qcpower x (Z.to_nat (- n)))%Qc else Qcpower x (Z.to_nat n).

(** Rational arithmetic without rounding, in which no power is out of range;
    [twelve_root_two] is the double that [2 ** (1 / 12)] evaluates to,
    4771397596969315 / 2^52. *)
#[export] Instance Qc_FloatArith : FloatArith Qc := {|
  of_int := Qc_of_Z;
  fadd := Qcplus;
  fsub := Qcminus;
  fmul := Qcmult;
  fdiv := Qcdiv;
  fis_zero := fun x => Qeq_bool x 0;
  fltb := fun x y => match (x ?= y)%Qc with Lt => true | _ => false end;
  ffloor := fun x => Qfloor x;
  fpow := fun x n => Some (Qc_pow x n);
  twelve_root_two := Q2Qc (4771397596969315 # 4503599627370496)
|}.

(** ** Predicates and views used in the statements *)

Definition no_NoteOn {T : Type} (es : list (Event T)) : Prop :=
  Forall (fun e => is_NoteOn e = false) es.

(** The tuple of the NoteOn event at index [i], read off the track by
    position: its pitch, the tick of the event at index [i + 1], its tick. *)
Definition note_tuple_at (track : Track Z) (i : nat) : option (Z * Z * Z) :=
  match events track !! i, events track !! S i with
  | Some (NoteOnEvent tk pitch _), Some next => Some (pitch, tick next, tk)
  | _, _ => None
  end.

Definition NoteOn_followed (track : Track Z) : Prop :=
  forall (i : nat) e,
    events track !! i = Some e -> is_NoteOn e = true ->
    is_Some (events track !! S i).

(** A NoteOn event whose velocity is not 0: a note that sounds. *)
Definition is_loud_NoteOn {T : Type} (e : Event T) : bool :=
  match e with NoteOnEvent _ _ v => negb (v =? 0) | _ => false end.

(** The last event of the track is a NoteOn event. *)
Definition ends_with_NoteOn {T : Type} (track : Track T) : bool :=
  from_option is_NoteOn false (last (events track)).

(** The last event of the track is an EndOfTrack event. *)
Definition ends_with_EndOfTrack {T : Type} (track : Track T) : bool :=
  from_option is_EndOfTrack false (last (events track)).

(** What an event is apart from its tick: its class and its other fields. *)
Definition content {T : Type} (e : Event T) : Event unit := set_tick e tt.

(** Every event of the list has a content that satisfies [Q]. *)
Definition all_contents {T : Type} (Q : Event unit -> Prop)
    (es : list (Event T)) : Prop :=
  Forall (fun e => Q (content e)) es.

(** Key order on a list. *)
Definition key_le {A : Type} (key : A -> Z) (a b : A) : Prop := key a <= key b.

#[export] Instance exn_eq_dec : EqDecision exn.
Proof. solve_decision. Defined.

#[export] Instance Event_eq_dec {T : Type} `{EqDecision T} : EqDecision (Event T).
Proof. solve_decision. Defined.

#[export] Instance Track_eq_dec {T : Type} `{EqDecision T} : EqDecision (Track T).
Proof. solve_decision. Defined.

#[export] Instance result_eq_dec {A : Type} `{EqDecision A} : EqDecision (result A).
Proof. solve_decision. Defined.

(** Closed equalities between values that hold rationals are decided by
    evaluation. *)
Ltac by_evaluation :=
  match goal with
  | |- ?P => apply (bool_decide_eq_true_1 P); vm_compute; reflexivity
  end.

Definition is_Ok {A : Type} (r : result A) : bool :=
  match r with Ok _ => true | Raise _ => false end.

(** ** Events under a change of tick *)

Section EventFacts.
Context {T U : Type}.

Lemma tick_set_tick (e : Event T) (t : U) : tick (set_tick e t) = t.
Proof. by destruct e. Qed.

Lemma is_NoteOn_set_tick (e : Event T) (t : U) :
  is_NoteOn (set_tick e t) = is_NoteOn e.
Proof. by destruct e. Qed.

Lemma set_tick_set_tick {V : Type} (e : Event T) (t : U) (t' : V) :
  set_tick (set_tick e t) t' = set_tick e t'.
Proof. by destruct e. Qed.
End EventFacts.

Lemma set_tick_tick {T : Type} (e : Event T) : set_tick e (tick e) = e.
Proof. by destruct e. Qed.

(** ** The Note Normalizer *)

Lemma fix_mary_loop_fmap {T : Type} (es : list (Event T)) :
  fix_mary_loop es = fix_event <$> es.
Proof. induction es as [|e es IH]; simpl; by rewrite ?IH. Qed.

Lemma fix_event_not_silent {T : Type} (e : Event T) :
  is_silent_NoteOn (fix_event e) = false.
Proof.
  destruct e as [tk p v| | |]; simpl; try done.
  destruct (v =? 0) eqn:Hv; simpl; done.
Qed.

Lemma fix_event_id {T : Type} (e : Event T) :
  is_silent_NoteOn e = false -> fix_event e = e.
Proof.
  destruct e as [tk p v| | |]; simpl; try done.
  by intros ->.
Qed.

Lemma fix_mary_id {T : Type} (track : Track T) :
  Forall (fun e => is_silent_NoteOn e = false) (events track) ->
  fix_mary track = track.
Proof.
  destruct track as [es r]; unfold fix_mary; simpl.
  intros Hes; f_equal.
  induction Hes as [|e es He _ IH]; simpl; [done|].
  by rewrite IH, fix_event_id.
Qed.

(** C8.  The Note Normalizer keeps the number of events and the mode of the
    track, and works position by position: a NoteOn event of velocity 0 at
    index [i] becomes the NoteOff event with the same tick, pitch and
    velocity at index [i], every other event stays at its index unchanged,
    and no NoteOn event of velocity 0 is left in the output. *)
Theorem fix_mary_spec {T : Type} (track : Track T) :
  List.length (events (fix_mary track)) = List.length (events track)
  /\ relative (fix_mary track) = relative track
  /\ (forall (i : nat) tk p,
        events track !! i = Some (NoteOnEvent tk p 0) ->
        events (fix_mary track) !! i = Some (NoteOffEvent tk p 0))
  /\ (forall (i : nat) e,
        events track !! i = Some e -> is_silent_NoteOn e = false ->
        events (fix_mary track) !! i = Some e)
  /\ Forall (fun e => is_silent_NoteOn e = false) (events (fix_mary track)).
Proof.
  unfold fix_mary; simpl. rewrite fix_mary_loop_fmap.
  split_and!.
  - by rewrite length_fmap.
  - done.
  - intros i tk p Hi. by rewrite list_lookup_fmap, Hi.
  - intros i e Hi He. by rewrite list_lookup_fmap, Hi; simpl; rewrite fix_event_id.
  - apply Forall_fmap, Forall_true. intros e; apply fix_event_not_silent.
Qed.

Lemma fix_mary_spec_witness :
  let track := mkTrack [NoteOnEvent 0 60 100; NoteOnEvent 96 60 0;
                        EndOfTrackEvent 0] true in
  events (fix_mary track)
  = [NoteOnEvent 0 60 100; NoteOffEvent 96 60 0; EndOfTrackEvent 0]
  /\ events (fix_mary track) !! 1%nat = Some (NoteOffEvent 96 60 0)
  /\ events (fix_mary track) !! 0%nat = Some (NoteOnEvent 0 60 100).
Proof.
  intros track.
  destruct (fix_mary_spec track) as (_ & _ & Hoff & Hsame & _).
  split; [reflexivity|]. split.
  - apply (Hoff 1%nat 96 60). reflexivity.
  - apply (Hsame 0%nat). reflexivity. reflexivity.
Defined.

(** ** The Header Splitter *)

Lemma first_non_meta_None {T : Type} (i : nat) (es : list (Event T)) :
  first_non_meta i es = None <-> forallb is_Meta es = true.
Proof.
  revert i; induction es as [|e es IH]; intros i; simpl; [done|].
  destruct (is_Meta e); simpl; [apply IH | done].
Qed.

Lemma first_non_meta_Some {T : Type} (i j : nat) (es : list (Event T)) :
  first_non_meta i es = Some j ->
  exists k e, j = (i + k)%nat /\ es !! k = Some e /\ is_Meta e = false
              /\ Forall (fun e' => is_Meta e' = true) (take k es).
Proof.
  revert i; induction es as [|e es IH]; intros i; simpl; [done|].
  destruct (is_Meta e) eqn:He.
  - intros (k & e' & -> & Hk & He' & Hall)%IH.
    exists (S k), e'. split_and!; [lia|done|done|].
    simpl. by constructor.
  - intros [= <-]. exists 0%nat, e. split_and!; [lia|done|done|].
    simpl. constructor.
Qed.

(** C5, as the code has it.  The header and the body keep the mode of the
    track.  When some event is not a MetaEvent, the header is the maximal
    leading run of MetaEvents and the body is the rest, starting at the first
    event that is not a MetaEvent.  When every event is a MetaEvent (the
    empty track included), the header is empty and the body is the whole
    track. *)
Theorem split_header_meta_events_spec {T : Type} (track : Track T) :
  relative (split_header_meta_events track).1 = relative track
  /\ relative (split_header_meta_events track).2 = relative track
  /\ events (split_header_meta_events track).1
     ++ events (split_header_meta_events track).2 = events track
  /\ if forallb is_Meta (events track)
     then events (split_header_meta_events track).1 = []
          /\ (split_header_meta_events track).2 = track
     else Forall (fun e => is_Meta e = true)
            (events (split_header_meta_events track).1)
          /\ exists e rest,
               events (split_header_meta_events track).2 = e :: rest
               /\ is_Meta e = false.
Proof.
  unfold split_header_meta_events.
  destruct (first_non_meta 0 (events track)) as [i|] eqn:Hi; simpl.
  - destruct (first_non_meta_Some _ _ _ Hi) as (k & e & -> & Hk & He & Hall).
    simpl in *. split_and!; [done|done|apply take_drop|].
    destruct (forallb is_Meta (events track)) eqn:Hall'.
    + apply first_non_meta_None with (i := 0%nat) in Hall'. congruence.
    + split; [done|]. exists e, (drop (S k) (events track)).
      split; [|done]. by rewrite <- drop_S.
  - split_and!; [done|done|done|].
    apply first_non_meta_None in Hi. by rewrite Hi.
Qed.

(** C5, counterexample: on a track of one MetaEvent the header is empty and
    the body is the whole track. *)
Lemma split_header_all_meta_counterexample :
  forallb is_Meta (events (mkTrack [MetaEvent 0 3 []] true)) = true
  /\ events (split_header_meta_events (mkTrack [MetaEvent 0 3 []] true)).1 = []
  /\ events (split_header_meta_events (mkTrack [MetaEvent 0 3 []] true)).2
     = [MetaEvent 0 3 []].
Proof. by vm_compute. Qed.

(** ** The Note Sequencer *)

Lemma omap_cons_eq {A B : Type} (f : A -> option B) (x : A) (l : list A) :
  omap f (x :: l) = match f x with Some y => y :: omap f l | None => omap f l end.
Proof. reflexivity. Qed.

Lemma get_note_info_loop_cons (track : Track Z) (i : nat) e rest :
  get_note_info_loop track i (e :: rest)
  = match e with
    | NoteOnEvent tk pitch _ =>
        match events track !! (i + 1)%nat with
        | None => ([], Some IndexError)
        | Some next =>
            ((pitch, tick next, tk) :: (get_note_info_loop track (S i) rest).1,
             (get_note_info_loop track (S i) rest).2)
        end
    | _ => get_note_info_loop track (S i) rest
    end.
Proof.
  simpl. destruct e; try done.
  destruct (events track !! (i + 1)%nat); [|done].
  by destruct (get_note_info_loop track (S i) rest).
Qed.

Lemma get_note_info_loop_in_range (track : Track Z) (pre rest : list (Event Z)) :
  NoteOn_followed track ->
  events track = pre ++ rest ->
  get_note_info_loop track (List.length pre) rest
  = (omap (note_tuple_at track) (seq (List.length pre) (List.length rest)), None).
Proof.
  intros Hfol. revert pre.
  induction rest as [|e rest IH]; intros pre Hsplit; [done|].
  assert (Hnext : get_note_info_loop track (S (List.length pre)) rest
                  = (omap (note_tuple_at track)
                       (seq (S (List.length pre)) (List.length rest)), None)).
  { specialize (IH (pre ++ [e])). rewrite length_app in IH; simpl in IH.
    replace (List.length pre + 1)%nat with (S (List.length pre)) in IH by lia.
    apply IH. by rewrite <- app_assoc. }
  assert (Hhere : events track !! List.length pre = Some e).
  { rewrite Hsplit. by apply list_lookup_middle. }
  rewrite get_note_info_loop_cons.
  cbn [List.length seq]. rewrite omap_cons_eq.
  unfold note_tuple_at at 1. rewrite Hhere.
  destruct e as [tk p v| | |]; rewrite ?Hnext; try done.
  destruct (Hfol _ _ Hhere eq_refl) as [next Hn].
  replace (List.length pre + 1)%nat with (S (List.length pre)) by lia.
  by rewrite Hn.
Qed.

Lemma get_note_info_loop_out_of_range (track : Track Z) (pre rest : list (Event Z)) e :
  last (events track) = Some e -> is_NoteOn e = true ->
  events track = pre ++ rest -> rest <> [] ->
  (get_note_info_loop track (List.length pre) rest).2 = Some IndexError.
Proof.
  intros Hlast He. revert pre.
  induction rest as [|x rest IH]; intros pre Hsplit Hne; [done|].
  destruct rest as [|y rest].
  - rewrite Hsplit, last_snoc in Hlast. injection Hlast as ->.
    destruct e; try done. rewrite get_note_info_loop_cons.
    rewrite (lookup_ge_None_2 (events track)); [done|].
    rewrite Hsplit, length_app; simpl; lia.
  - assert (Hnext : (get_note_info_loop track (S (List.length pre)) (y :: rest)).2
                    = Some IndexError).
    { specialize (IH (pre ++ [x])). rewrite length_app in IH; simpl in IH.
      replace (List.length pre + 1)%nat with (S (List.length pre)) in IH by lia.
      apply IH; [by rewrite <- app_assoc | done]. }
    destruct x as [tk p v| | |]; try done.
    rewrite get_note_info_loop_cons.
    replace (events track !! (List.length pre + 1)%nat) with (Some y); [done|].
    rewrite Hsplit. rewrite lookup_app_r by lia.
    by replace (List.length pre + 1 - List.length pre)%nat with 1%nat by lia.
Qed.

(** C10.  When every NoteOn event is followed by a further event, the lookup
    at index [i + 1] is in range for every NoteOn: the generator ends without
    an exception and yields, in index order, the tuple of every NoteOn event.
    When the last event of the track is a NoteOn, the generator ends in
    [IndexError]. *)
Theorem get_note_info_positional (track : Track Z) :
  (NoteOn_followed track ->
     get_note_info track
     = (omap (note_tuple_at track) (seq 0 (List.length (events track))), None)
     /\ forall (i : nat) tk p v,
          events track !! i = Some (NoteOnEvent tk p v) ->
          exists next, events track !! S i = Some next
                       /\ (p, tick next, tk) ∈ (get_note_info track).1)
  /\ (forall e, last (events track) = Some e -> is_NoteOn e = true ->
        (get_note_info track).2 = Some IndexError).
Proof.
  split.
  - intros Hfol.
    assert (Heq : get_note_info track
       = (omap (note_tuple_at track) (seq 0 (List.length (events track))), None)).
    { apply (get_note_info_loop_in_range track [] (events track)); done. }
    split; [done|].
    intros i tk p v Hi.
    destruct (Hfol _ _ Hi eq_refl) as [next Hn].
    exists next. split; [done|].
    rewrite Heq; simpl. apply list_elem_of_omap.
    exists i. split.
    + apply elem_of_seq. apply lookup_lt_Some in Hi. lia.
    + unfold note_tuple_at. by rewrite Hi, Hn.
  - intros e Hlast He.
    apply (get_note_info_loop_out_of_range track [] (events track) e); try done.
    intros Hnil. by rewrite Hnil in Hlast.
Qed.

Lemma get_note_info_positional_witness :
  get_note_info (mkTrack [NoteOnEvent 0 60 100; NoteOffEvent 96 60 0;
                          NoteOnEvent 0 72 100; NoteOffEvent 48 72 0] true)
  = ([(60, 96, 0); (72, 48, 0)], None)
  /\ (get_note_info (mkTrack [NoteOnEvent 0 60 100; NoteOffEvent 96 60 0;
                              NoteOnEvent 0 72 100] true)).2
     = Some IndexError.
Proof.
  split.
  - refine (proj1 (proj1 (get_note_info_positional _) _)).
    intros i e He Hon.
    destruct i as [|[|[|[|i]]]]; simplify_eq/=; try done; by eexists.
  - refine (proj2 (get_note_info_positional _) (NoteOnEvent 0 72 100) _ _);
      reflexivity.
Defined.

(** ** The Tick Sorter *)

Lemma abs_from_rel_from (running : Z) (es : list (Event Z)) :
  abs_from running (rel_from running es) = es.
Proof.
  revert running; induction es as [|e es IH]; intros running; simpl; [done|].
  rewrite tick_set_tick, set_tick_set_tick.
  replace (running + (tick e - running)) with (tick e) by lia.
  by rewrite set_tick_tick, IH.
Qed.

Section Sorted.
Context {A : Type} (key : A -> Z).

Lemma insert_by_key_Permutation (x : A) (l : list A) :
  insert_by_key key x l ≡ₚ x :: l.
Proof.
  induction l as [|y l IH]; simpl; [done|].
  destruct (key x <=? key y); [done|].
  by rewrite IH, Permutation_swap.
Qed.

Lemma sorted_Permutation (l : list A) : sorted key l ≡ₚ l.
Proof.
  induction l as [|x l IH]; simpl; [done|].
  by rewrite insert_by_key_Permutation, IH.
Qed.

Lemma insert_by_key_StronglySorted (x : A) (l : list A) :
  StronglySorted (key_le key) l ->
  StronglySorted (key_le key) (insert_by_key key x l).
Proof.
  induction 1 as [|y l Hl IH Hy]; simpl.
  - repeat constructor.
  - destruct (Z.leb_spec (key x) (key y)) as [Hxy|Hxy].
    + constructor; [by constructor|].
      constructor; [done|].
      eapply Forall_impl; [exact Hy|]. unfold key_le; simpl; intros; lia.
    + constructor; [done|].
      rewrite insert_by_key_Permutation. constructor; [|done].
      unfold key_le; lia.
Qed.

Lemma sorted_StronglySorted (l : list A) :
  StronglySorted (key_le key) (sorted key l).
Proof.
  induction l as [|x l IH]; simpl; [constructor|].
  by apply insert_by_key_StronglySorted.
Qed.

(** Sorting a list that is in key order gives the list back. *)
Lemma sorted_id (l : list A) :
  StronglySorted (key_le key) l -> sorted key l = l.
Proof.
  induction 1 as [|x l Hl IH Hx]; simpl; [done|].
  rewrite IH. destruct Hx as [|y l Hxy _]; simpl; [done|].
  unfold key_le in Hxy. by rewrite (proj2 (Z.leb_le _ _) Hxy).
Qed.

Lemma StronglySorted_lookup (l : list A) (i j : nat) (a b : A) :
  StronglySorted (key_le key) l ->
  (i < j)%nat -> l !! i = Some a -> l !! j = Some b -> key a <= key b.
Proof.
  intros Hl; revert i j.
  induction Hl as [|x l Hl IH Hx]; intros i j Hij Hi Hj; [done|].
  destruct j as [|j]; [lia|]. simpl in Hj.
  destruct i as [|i]; simpl in Hi.
  - injection Hi as ->. rewrite Forall_forall in Hx.
    apply Hx. by eapply list_elem_of_lookup_2.
  - apply (IH i j); [lia|done|done].
Qed.
End Sorted.

Lemma sort_ticks_abs (track : Track Z) :
  make_ticks_abs (sort_ticks track)
  = mkTrack (sorted sort_key (events (make_ticks_abs track))) false.
Proof.
  unfold sort_ticks, make_ticks_rel, make_ticks_abs at 1; simpl.
  by rewrite abs_from_rel_from.
Qed.

Lemma sort_key_tick (a b : Event Z) :
  sort_key a <= sort_key b -> tick a <= tick b.
Proof.
  unfold sort_key. destruct (is_NoteOn a), (is_NoteOn b); simpl; lia.
Qed.

Lemma key_order_tick_order (l : list (Event Z)) :
  StronglySorted (key_le sort_key) l ->
  StronglySorted (fun a b => tick a <= tick b) l.
Proof.
  induction 1 as [|x l Hl IH Hx]; constructor; [done|].
  eapply Forall_impl; [exact Hx|]. intros b; apply sort_key_tick.
Qed.

(** C6.  Read in absolute ticks, the output of the Tick Sorter holds the
    events of its input (in absolute ticks), in nondecreasing tick order;
    and of two events at the same tick, when the earlier one in the output is
    a NoteOn event so is the later one: events that are not NoteOn come
    first. *)
Theorem sort_ticks_order (track : Track Z) :
  events (make_ticks_abs (sort_ticks track)) ≡ₚ events (make_ticks_abs track)
  /\ StronglySorted (fun a b => tick a <= tick b)
       (events (make_ticks_abs (sort_ticks track)))
  /\ forall (i j : nat) a b,
       (i < j)%nat ->
       events (make_ticks_abs (sort_ticks track)) !! i = Some a ->
       events (make_ticks_abs (sort_ticks track)) !! j = Some b ->
       tick a = tick b -> is_NoteOn a = true -> is_NoteOn b = true.
Proof.
  rewrite sort_ticks_abs; simpl.
  pose proof (sorted_StronglySorted sort_key (events (make_ticks_abs track))) as Hs.
  split_and!.
  - apply sorted_Permutation.
  - by apply key_order_tick_order.
  - intros i j a b Hij Hi Hj Hab Ha.
    pose proof (StronglySorted_lookup _ _ _ _ _ _ Hs Hij Hi Hj) as Hk.
    unfold sort_key in Hk. rewrite Hab, Ha in Hk.
    destruct (is_NoteOn b); [done|]. simpl in Hk. lia.
Qed.

Lemma sort_ticks_order_witness :
  let track := mkTrack [NoteOnEvent 0 60 100; NoteOnEvent 96 62 100;
                        NoteOffEvent 0 60 0; NoteOnEvent 0 64 100] true in
  events (make_ticks_abs (sort_ticks track))
  = [NoteOnEvent 0 60 100; NoteOffEvent 96 60 0;
     NoteOnEvent 96 62 100; NoteOnEvent 96 64 100]
  /\ is_NoteOn (NoteOnEvent 96 64 100 : Event Z) = true.
Proof.
  intros track. split; [reflexivity|].
  destruct (sort_ticks_order track) as (_ & _ & Hon).
  apply (Hon 2%nat 3%nat (NoteOnEvent 96 62 100)); [lia|reflexivity..].
Defined.

(** C7.  The Tick Sorter is idempotent: sorting the output of the sorter
    gives the same track, event for event. *)
Theorem sort_ticks_idempotent (track : Track Z) :
  sort_ticks (sort_ticks track) = sort_ticks track.
Proof.
  unfold sort_ticks at 1. rewrite sort_ticks_abs; simpl.
  rewrite sorted_id by apply sorted_StronglySorted.
  reflexivity.
Qed.

(** ** The root of a melody *)

Lemma get_root_loop_None {T : Type} (es : list (Event T)) :
  no_NoteOn es -> get_root_loop es = None.
Proof.
  induction 1 as [|e es He _ IH]; simpl; [done|].
  by destruct e.
Qed.

Lemma get_root_loop_first {T : Type} (pre post : list (Event T)) tk p v :
  no_NoteOn pre -> get_root_loop (pre ++ NoteOnEvent tk p v :: post) = Some p.
Proof.
  induction 1 as [|e es He _ IH]; simpl; [done|].
  by destruct e.
Qed.

Section SetTickInvariant.
Context {T : Type} `{TickArith T} (P : Event T -> Prop).
Hypothesis P_set_tick : forall e t, P e -> P (set_tick e t).

Lemma abs_from_Forall (running : T) (es : list (Event T)) :
  Forall P es -> Forall P (abs_from running es).
Proof.
  intros Hes; revert running.
  induction Hes as [|e es He _ IH]; intros running; simpl; constructor; auto.
Qed.

Lemma rel_from_Forall (running : T) (es : list (Event T)) :
  Forall P es -> Forall P (rel_from running es).
Proof.
  intros Hes; revert running.
  induction Hes as [|e es He _ IH]; intros running; simpl; constructor; auto.
Qed.
End SetTickInvariant.

Lemma abs_from_length {T : Type} `{TickArith T} (running : T) (es : list (Event T)) :
  List.length (abs_from running es) = List.length es.
Proof. revert running; induction es; intros; simpl; auto. Qed.

Lemma rel_from_length {T : Type} `{TickArith T} (running : T) (es : list (Event T)) :
  List.length (rel_from running es) = List.length es.
Proof. revert running; induction es; intros; simpl; auto. Qed.

Lemma sort_ticks_length (track : Track Z) :
  List.length (events (sort_ticks track)) = List.length (events track).
Proof.
  unfold sort_ticks; simpl.
  rewrite rel_from_length, (Permutation_length (sorted_Permutation _ _)).
  unfold make_ticks_abs. destruct (relative track); simpl; [|done].
  apply abs_from_length.
Qed.

Lemma sort_ticks_no_NoteOn (track : Track Z) :
  no_NoteOn (events track) -> no_NoteOn (events (sort_ticks track)).
Proof.
  intros Hno. unfold sort_ticks, no_NoteOn; simpl.
  apply rel_from_Forall; [intros e t; by rewrite is_NoteOn_set_tick|].
  rewrite sorted_Permutation.
  unfold make_ticks_abs. destruct (relative track); simpl; [|done].
  apply abs_from_Forall; [intros e t; by rewrite is_NoteOn_set_tick|done].
Qed.

Lemma get_note_info_loop_no_NoteOn (track : Track Z) (i : nat) rest :
  no_NoteOn rest -> get_note_info_loop track i rest = ([], None).
Proof.
  intros Hno; revert i.
  induction Hno as [|e es He _ IH]; intros i; [done|].
  rewrite get_note_info_loop_cons. by destruct e.
Qed.

Lemma split_body_nonempty {T : Type} (track : Track T) :
  events track <> [] -> events (split_header_meta_events track).2 <> [].
Proof.
  intros Hne. unfold split_header_meta_events.
  destruct (first_non_meta 0 (events track)) as [i|] eqn:Hi; simpl; [|done].
  destruct (first_non_meta_Some _ _ _ Hi) as (k & e & -> & Hk & _).
  simpl. intros Hnil. apply (f_equal List.length) in Hnil.
  rewrite length_drop in Hnil. apply lookup_lt_Some in Hk. simpl in Hnil. lia.
Qed.

Lemma split_body_empty {T : Type} (track : Track T) :
  events track = [] -> events (split_header_meta_events track).2 = [].
Proof.
  intros Hnil. unfold split_header_meta_events. by rewrite Hnil.
Qed.

Section EmptyMelody.
Context {F : Type} `{FloatArith F}.

Lemma fractalize_track_unfold (resolution : Z) (track : Track Z) :
  fractalize_track (F := F) resolution track
  = let sorted_track := sort_ticks track in
    let body := (split_header_meta_events sorted_track).2 in
    let! last_event := getitem_last body in
    let body' := if is_EndOfTrack last_event then slice_init body else body in
    let! fractal :=
      reduce_add
        (fractalize_note resolution (get_ratio (get_root sorted_track)) body')
        (get_note_info sorted_track) in
    let fractal :=
      if is_EndOfTrack last_event
      then append fractal (float_event last_event) else fractal in
    let! quarters := int_truediv (track_length body') resolution in
    let! fractal :=
      track_truediv fractal (fmul quarters (of_int Q_NOTE_PHRASE_LEN)) in
    Ok (track_add
          (float_track (split_header_meta_events sorted_track).1) fractal).
Proof.
  unfold fractalize_track.
  destruct (split_header_meta_events (sort_ticks track)) as [header body].
  simpl. destruct (getitem_last body) as [last_event|e]; simpl; [|done].
  by destruct (is_EndOfTrack last_event).
Qed.

(** C3, as the code has it.  On a track without a NoteOn event [get_root]
    returns [None] and raises nothing; [fractalize_track] then fails: with
    [IndexError] when the track has no event at all ([track[-1]] on the
    empty body), and with the [TypeError] of [reduce] on an empty sequence
    otherwise.  On a track with a NoteOn event [get_root] returns the pitch
    of the first one in track order. *)
Theorem get_root_empty_melody (resolution : Z) (track : Track Z) :
  (no_NoteOn (events track) ->
     get_root track = None
     /\ fractalize_track (F := F) resolution track
        = Raise (match events track with [] => IndexError | _ => TypeError end))
  /\ (forall pre tk p v post,
        events track = pre ++ NoteOnEvent tk p v :: post -> no_NoteOn pre ->
        get_root track = Some p).
Proof.
  split.
  - intros Hno. split; [by apply get_root_loop_None|].
    rewrite fractalize_track_unfold; cbv zeta.
    destruct (events track) as [|e es] eqn:Hes.
    + unfold getitem_last. rewrite split_body_empty; [done|].
      apply length_zero_iff_nil. by rewrite sort_ticks_length, Hes.
    + assert (Hbody : events (split_header_meta_events (sort_ticks track)).2 <> []).
      { apply split_body_nonempty. intros Hnil.
        apply (f_equal List.length) in Hnil.
        rewrite sort_ticks_length, Hes in Hnil. done. }
      unfold getitem_last.
      destruct (last _) as [last_event|] eqn:Hlast;
        [|by apply last_None in Hlast].
      simpl. unfold get_note_info.
      rewrite get_note_info_loop_no_NoteOn; [done|].
      apply sort_ticks_no_NoteOn. by rewrite Hes.
  - intros pre tk p v post Hsplit Hpre. unfold get_root. rewrite Hsplit.
    by apply get_root_loop_first.
Qed.
End EmptyMelody.

Lemma get_root_empty_melody_witness :
  get_root (mkTrack [NoteOffEvent 0 60 0; EndOfTrackEvent 96] true) = None
  /\ fractalize_track (F := Qc) 96
       (mkTrack [NoteOffEvent 0 60 0; EndOfTrackEvent 96] true)
     = Raise TypeError
  /\ fractalize_track (F := Qc) 96 (mkTrack [] true) = Raise IndexError
  /\ get_root (mkTrack [MetaEvent 0 3 []; NoteOnEvent 0 64 100;
                        NoteOnEvent 96 60 100] true) = Some 64.
Proof.
  split_and!.
  - refine (proj1 (proj1 (get_root_empty_melody (F := Qc) 96 _) _)).
    repeat constructor.
  - refine (proj2 (proj1 (get_root_empty_melody (F := Qc) 96
              (mkTrack [NoteOffEvent 0 60 0; EndOfTrackEvent 96] true)) _)).
    repeat constructor.
  - refine (proj2 (proj1 (get_root_empty_melody (F := Qc) 96 (mkTrack [] true)) _)).
    constructor.
  - refine (proj2 (get_root_empty_melody (F := Qc) 96 _)
              [MetaEvent 0 3 []] 0 64 100 [NoteOnEvent 96 60 100] _ _).
    + reflexivity.
    + repeat constructor.
Defined.

(** C3, counterexample: on a track with one NoteOff event and no NoteOn
    event [get_root] returns [None], and [fractalize_track] raises
    [TypeError], which is not [EmptyMelodyError]. *)
Lemma get_root_empty_melody_counterexample :
  get_root (mkTrack [NoteOffEvent 0 60 0] true) = None
  /\ fractalize_track (F := Qc) 96 (mkTrack [NoteOffEvent 0 60 0] true)
     = Raise TypeError
  /\ TypeError <> EmptyMelodyError.
Proof. split_and!; [reflexivity|by vm_compute|done]. Qed.

(** ** The Note Fractalizer and the Track Fractalizer *)

Section Fractalizer.
Context {F : Type} `{FloatArith F}.




(** C2, as the code has it.  The driver applies the Note Normalizer and
    hands its output to [fractalize_track]; [fractalize_track] itself starts
    with the Tick Sorter, so its result on a track is its result on the
    sorter's output; and on a track without a NoteOn event of velocity 0,
    which the normalizer leaves as it is, its result is its result on the
    normalizer's output. *)
Theorem fractalize_track_preprocessing (resolution : Z) (track : Track Z) :
  main (F := F) resolution track = fractalize_track resolution (fix_mary track)
  /\ fractalize_track (F := F) resolution (sort_ticks track)
     = fractalize_track resolution track
  /\ (Forall (fun e => is_silent_NoteOn e = false) (events track) ->
      fractalize_track (F := F) resolution (fix_mary track)
      = fractalize_track resolution track).
Proof.
  split_and!.
  - reflexivity.
  - assert (Hidem : sort_ticks (sort_ticks track) = sort_ticks track).
    { unfold sort_ticks at 1. rewrite sort_ticks_abs; simpl.
      by rewrite sorted_id by apply sorted_StronglySorted. }
    unfold fractalize_track. by rewrite Hidem.
  - intros Hloud. by rewrite fix_mary_id.
Qed.
End Fractalizer.



Lemma fractalize_track_preprocessing_witness :
  let track := mkTrack [NoteOnEvent 0 60 100; NoteOffEvent 96 60 0;
                        EndOfTrackEvent 0] true in
  fractalize_track (F := Qc) 96 (fix_mary track)
  = fractalize_track (F := Qc) 96 track.
Proof.
  intros track.
  refine (proj2 (proj2 (fractalize_track_preprocessing (F := Qc) 96 track)) _).
  repeat constructor.
Defined.

(** C2, counterexample: a note ended by a NoteOn event of velocity 0.  On
    the track as it is, that event counts as a NoteOn and is sorted after the
    EndOfTrack event, and [fractalize_track] raises [IndexError]; on the
    normalizer's output it returns a track. *)
Lemma fractalize_track_normalizer_counterexample :
  let track := mkTrack [NoteOnEvent 0 60 100; NoteOnEvent 96 60 0;
                        EndOfTrackEvent 0] true in
  fractalize_track (F := Qc) 96 track = Raise IndexError
  /\ is_Ok (fractalize_track (F := Qc) 96 (fix_mary track)) = true.
Proof. split; by vm_compute. Qed.

(** ** Further properties of the Note Normalizer *)

(** X1.  The Note Normalizer is idempotent: a normalized track is left as it
    is by a second pass. *)
Theorem fix_mary_idempotent {T : Type} (track : Track T) :
  fix_mary (fix_mary track) = fix_mary track.
Proof.
  apply fix_mary_id. simpl. rewrite fix_mary_loop_fmap.
  apply Forall_fmap, Forall_true. intros e; apply fix_event_not_silent.
Qed.

Lemma get_root_loop_fix_quiet {T : Type} (es : list (Event T)) :
  Forall (fun e => is_loud_NoteOn e = false) es ->
  get_root_loop (fix_event <$> es) = None.
Proof.
  induction 1 as [|e es He _ IH]; simpl; [done|].
  destruct e as [tk p v| | |]; simpl in *; try done.
  destruct (v =? 0); simpl in *; done.
Qed.

Lemma get_root_loop_fix_loud {T : Type} (pre post : list (Event T)) tk p v :
  v <> 0 ->
  Forall (fun e => is_loud_NoteOn e = false) pre ->
  get_root_loop (fix_event <$> (pre ++ NoteOnEvent tk p v :: post)) = Some p.
Proof.
  intros Hv. induction 1 as [|e es He _ IH]; simpl.
  - by rewrite (proj2 (Z.eqb_neq _ _) Hv).
  - destruct e as [tk' p' v'| | |]; simpl in *; try done.
    destruct (v' =? 0); simpl in *; done.
Qed.

(** X2.  After the Note Normalizer the root is the pitch of the first NoteOn
    event of nonzero velocity: NoteOn events of velocity 0 in front of it no
    longer count, and a track whose NoteOn events all have velocity 0 has no
    root. *)
Theorem get_root_fix_mary {T : Type} (track : Track T) :
  (Forall (fun e => is_loud_NoteOn e = false) (events track) ->
     get_root (fix_mary track) = None)
  /\ (forall pre tk p v post,
        events track = pre ++ NoteOnEvent tk p v :: post -> v <> 0 ->
        Forall (fun e => is_loud_NoteOn e = false) pre ->
        get_root (fix_mary track) = Some p).
Proof.
  unfold get_root, fix_mary; simpl. rewrite fix_mary_loop_fmap. split.
  - apply get_root_loop_fix_quiet.
  - intros pre tk p v post -> Hv Hpre. by apply get_root_loop_fix_loud.
Qed.

Lemma get_root_fix_mary_witness :
  get_root (fix_mary (mkTrack [NoteOnEvent 0 60 0; NoteOffEvent 10 60 0] true))
  = None
  /\ get_root (fix_mary (mkTrack [NoteOnEvent 0 60 0; NoteOnEvent 10 64 90;
                                  NoteOnEvent 96 64 0] true))
     = Some 64
  /\ get_root (mkTrack [NoteOnEvent 0 60 0; NoteOnEvent 10 64 90;
                        NoteOnEvent 96 64 0] true)
     = Some 60.
Proof.
  split_and!.
  - refine (proj1 (get_root_fix_mary _) _). repeat constructor.
  - refine (proj2 (get_root_fix_mary _)
              [NoteOnEvent 0 60 0] 10 64 90 [NoteOnEvent 96 64 0] _ _ _).
    + reflexivity.
    + lia.
    + repeat constructor.
  - reflexivity.
Defined.

Lemma is_Meta_fix_event {T : Type} (e : Event T) :
  is_Meta (fix_event e) = is_Meta e.
Proof. destruct e as [tk p v| | |]; simpl; try done. by destruct (v =? 0). Qed.

Lemma first_non_meta_fix {T : Type} (i : nat) (es : list (Event T)) :
  first_non_meta i (fix_event <$> es) = first_non_meta i es.
Proof.
  revert i; induction es as [|e es IH]; intros i; simpl; [done|].
  rewrite is_Meta_fix_event. by destruct (is_Meta e).
Qed.

(** X3.  The Note Normalizer and the Header Splitter commute: splitting a
    normalized track gives the normalized header and the normalized body of
    the track. *)
Theorem split_header_fix_mary {T : Type} (track : Track T) :
  split_header_meta_events (fix_mary track)
  = (fix_mary (split_header_meta_events track).1,
     fix_mary (split_header_meta_events track).2).
Proof.
  unfold split_header_meta_events, fix_mary; simpl.
  rewrite (fix_mary_loop_fmap (events track)), first_non_meta_fix.
  destruct (first_non_meta 0 (events track)) as [i|]; simpl;
    rewrite ?fix_mary_loop_fmap; [|done].
  by rewrite fmap_take, fmap_drop.
Qed.

(** ** Further properties of the Note Sequencer and of the root *)

Lemma get_root_loop_skip {T : Type} (pre rest : list (Event T)) :
  no_NoteOn pre -> get_root_loop (pre ++ rest) = get_root_loop rest.
Proof.
  induction 1 as [|e es He _ IH]; simpl; [done|]. by destruct e.
Qed.

Lemma Meta_no_NoteOn {T : Type} (es : list (Event T)) :
  Forall (fun e => is_Meta e = true) es -> no_NoteOn es.
Proof. intros Hes. eapply Forall_impl; [exact Hes|]. by intros []. Qed.

Lemma get_note_info_loop_skip (track : Track Z) (i : nat) (pre rest l : list (Event Z)) :
  no_NoteOn pre -> l = pre ++ rest ->
  get_note_info_loop track i l
  = get_note_info_loop track (i + List.length pre) rest.
Proof.
  intros Hpre ->. revert i.
  induction Hpre as [|e es He _ IH]; intros i; simpl List.length.
  - by rewrite Nat.add_0_r.
  - rewrite <- app_comm_cons, get_note_info_loop_cons.
    replace (i + S (List.length es))%nat with (S i + List.length es)%nat by lia.
    rewrite <- IH. by destruct e.
Qed.

Lemma get_note_info_loop_shift (track body : Track Z) (i j : nat) rest :
  (forall k : nat, events body !! k = events track !! (i + k)%nat) ->
  get_note_info_loop body j rest = get_note_info_loop track (i + j) rest.
Proof.
  intros Hshift. revert j.
  induction rest as [|e rest IH]; intros j; [done|].
  rewrite !get_note_info_loop_cons.
  rewrite Hshift, IH.
  replace (i + (j + 1))%nat with (i + j + 1)%nat by lia.
  by replace (i + S j)%nat with (S (i + j)) by lia.
Qed.

(** X4.  Stripping the header changes neither the root nor the notes: the
    body returned by the Header Splitter has the root of the whole track, and
    the Note Sequencer yields the same tuples, and ends the same way, on the
    body as on the whole track. *)
Theorem split_header_keeps_notes (track : Track Z) :
  get_root (split_header_meta_events track).2 = get_root track
  /\ get_note_info (split_header_meta_events track).2 = get_note_info track.
Proof.
  unfold split_header_meta_events.
  destruct (first_non_meta 0 (events track)) as [i|] eqn:Hi; simpl; [|done].
  destruct (first_non_meta_Some _ _ _ Hi) as (k & e & -> & Hk & He & Hall).
  simpl. apply Meta_no_NoteOn in Hall.
  assert (Hlen : List.length (take k (events track)) = k).
  { apply length_take_le. apply lookup_lt_Some in Hk. lia. }
  split.
  - unfold get_root; simpl.
    rewrite <- (take_drop k (events track)) at 2.
    by rewrite get_root_loop_skip.
  - unfold get_note_info; simpl.
    rewrite (get_note_info_loop_skip track 0 (take k (events track))
               (drop k (events track)) (events track) Hall
               (eq_sym (take_drop k (events track)))).
    rewrite Hlen. simpl.
    rewrite <- (Nat.add_0_r k) at 3.
    apply get_note_info_loop_shift. intros j; simpl. apply lookup_drop.
Qed.

Lemma get_note_info_loop_count (track : Track Z) (pre rest : list (Event Z)) :
  events track = pre ++ rest ->
  List.length (get_note_info_loop track (List.length pre) rest).1
  = List.length (List.filter is_NoteOn (removelast rest)).
Proof.
  revert pre. induction rest as [|x rest IH]; intros pre Hsplit; [done|].
  rewrite get_note_info_loop_cons.
  assert (Hnext : List.length
                    (get_note_info_loop track (S (List.length pre)) rest).1
                  = List.length (List.filter is_NoteOn (removelast rest))).
  { specialize (IH (pre ++ [x])). rewrite length_app in IH; simpl in IH.
    replace (List.length pre + 1)%nat with (S (List.length pre)) in IH by lia.
    apply IH. by rewrite <- app_assoc. }
  destruct rest as [|y rest].
  - destruct x; try done.
    rewrite (lookup_ge_None_2 (events track)); [done|].
    rewrite Hsplit, length_app; simpl; lia.
  - change (removelast (x :: y :: rest)) with (x :: removelast (y :: rest)).
    destruct x as [tk p v| | |]; cbn [List.filter is_NoteOn]; try done.
    replace (events track !! (List.length pre + 1)%nat) with (Some y).
    + cbn [fst List.length]. by rewrite Hnext.
    + rewrite Hsplit. rewrite lookup_app_r by lia.
      by replace (List.length pre + 1 - List.length pre)%nat with 1%nat by lia.
Qed.

Lemma not_ends_with_NoteOn_followed (track : Track Z) :
  ends_with_NoteOn track = false -> NoteOn_followed track.
Proof.
  unfold ends_with_NoteOn. rewrite last_lookup.
  intros Hlast i e Hi He. apply lookup_lt_is_Some.
  destruct (decide (S i < List.length (events track))%nat) as [|Hge]; [done|].
  apply lookup_lt_Some in Hi as Hlt.
  replace (pred (List.length (events track))) with i in Hlast by lia.
  rewrite Hi in Hlast. simpl in Hlast. congruence.
Qed.

(** X5.  The Note Sequencer raises exactly when the last event of the track
    is a NoteOn event, and then it raises [IndexError]; raising or not, it
    yields one tuple for every NoteOn event that is not the last event of the
    track. *)
Theorem get_note_info_outcome (track : Track Z) :
  (get_note_info track).2
  = (if ends_with_NoteOn track then Some IndexError else None)
  /\ List.length (get_note_info track).1
     = List.length (List.filter is_NoteOn (removelast (events track))).
Proof.
  split.
  - destruct (ends_with_NoteOn track) eqn:Hend.
    + unfold ends_with_NoteOn in Hend.
      destruct (last (events track)) as [e|] eqn:Hlast; [|done].
      apply (get_note_info_loop_out_of_range track [] (events track) e);
        try done.
      intros Hnil. by rewrite Hnil in Hlast.
    + pose proof (get_note_info_loop_in_range track [] (events track)
                    (not_ends_with_NoteOn_followed track Hend) eq_refl) as Hr.
      change (List.length (@nil (Event Z))) with 0%nat in Hr.
      unfold get_note_info. by rewrite Hr.
  - apply (get_note_info_loop_count track [] (events track)). done.
Qed.

Lemma get_note_info_loop_head (track : Track Z) (i : nat) rest p d tk ys :
  (get_note_info_loop track i rest).1 = (p, d, tk) :: ys ->
  get_root_loop rest = Some p.
Proof.
  revert i. induction rest as [|e rest IH]; intros i; [done|].
  rewrite get_note_info_loop_cons.
  destruct e as [tk' p' v'| | |]; simpl; try apply IH.
  destruct (events track !! (i + 1)%nat); simpl; [|done].
  congruence.
Qed.

(** X6.  The first note the Note Sequencer yields is the note of the root:
    whenever it yields a tuple, the pitch of the first tuple is what
    [get_root] returns for the track. *)
Theorem get_note_info_first_is_root (track : Track Z) p d tk ys :
  (get_note_info track).1 = (p, d, tk) :: ys -> get_root track = Some p.
Proof. apply get_note_info_loop_head. Qed.

Lemma get_note_info_first_is_root_witness :
  get_root (mkTrack [MetaEvent 0 3 []; NoteOnEvent 0 67 100;
                     NoteOffEvent 96 67 0; NoteOnEvent 0 60 100;
                     NoteOffEvent 96 60 0] true)
  = Some 67.
Proof.
  refine (get_note_info_first_is_root _ 67 96 0 [(60, 96, 0)] _). reflexivity.
Defined.

(** ** Further properties of the Tick Sorter *)

Lemma rel_from_abs_from (running : Z) (es : list (Event Z)) :
  rel_from running (abs_from running es) = es.
Proof.
  revert running; induction es as [|e es IH]; intros running; simpl; [done|].
  rewrite !tick_set_tick, set_tick_set_tick, IH.
  replace (running + tick e - running) with (tick e) by lia.
  by rewrite set_tick_tick.
Qed.

(** X7.  The tracks the Tick Sorter leaves unchanged are the relative tracks
    whose events, read in absolute ticks, are already in the order of the
    sort key [tick * 10 + isinstance(NoteOn)]. *)
Theorem sort_ticks_fixed_point (track : Track Z) :
  sort_ticks track = track
  <-> relative track = true
      /\ StronglySorted (key_le sort_key) (events (make_ticks_abs track)).
Proof.
  split.
  - intros Hfix. split; [by rewrite <- Hfix|].
    rewrite <- Hfix at 1. rewrite sort_ticks_abs; simpl.
    apply sorted_StronglySorted.
  - intros [Hrel Hs]. unfold sort_ticks. rewrite sorted_id by done.
    unfold make_ticks_abs. rewrite Hrel.
    unfold make_ticks_rel; simpl. rewrite rel_from_abs_from.
    destruct track as [es r]; simpl in *. by rewrite Hrel.
Qed.

Lemma make_ticks_abs_idempotent (track : Track Z) :
  make_ticks_abs (make_ticks_abs track) = make_ticks_abs track.
Proof. unfold make_ticks_abs. by destruct (relative track) eqn:Hr; simpl; rewrite ?Hr. Qed.

Lemma make_ticks_abs_rel (track : Track Z) :
  make_ticks_abs (make_ticks_rel track) = make_ticks_abs track.
Proof.
  unfold make_ticks_rel, make_ticks_abs at 2.
  destruct track as [es [|]]; simpl; [done|].
  unfold make_ticks_abs; simpl. by rewrite abs_from_rel_from.
Qed.

Lemma sort_ticks_of_abs (track track' : Track Z) :
  make_ticks_abs track' = make_ticks_abs track ->
  sort_ticks track' = sort_ticks track.
Proof. unfold sort_ticks. by intros ->. Qed.

Lemma rel_from_nonneg (running : Z) (es : list (Event Z)) :
  StronglySorted (fun a b => tick a <= tick b) es ->
  Forall (fun e => running <= tick e) es ->
  Forall (fun e => 0 <= tick e) (rel_from running es).
Proof.
  intros Hs; revert running.
  induction Hs as [|e es Hs IH He]; intros running Hlow; simpl; [constructor|].
  apply Forall_cons in Hlow as [Hlow _]. constructor.
  - rewrite tick_set_tick. lia.
  - by apply IH.
Qed.

Lemma sort_ticks_deltas (track : Track Z) :
  Forall (fun e => 0 <= tick e) (tail (events (sort_ticks track))).
Proof.
  unfold sort_ticks; simpl.
  pose proof (key_order_tick_order _
                (sorted_StronglySorted sort_key (events (make_ticks_abs track))))
    as Hs.
  destruct (sorted sort_key (events (make_ticks_abs track))) as [|e es];
    simpl; [constructor|].
  inversion Hs as [|? ? Hes He]; subst. by apply rel_from_nonneg.
Qed.

Lemma get_note_info_loop_duration (track : Track Z) (i : nat) rest p d tk :
  (p, d, tk) ∈ (get_note_info_loop track i rest).1 ->
  exists (j : nat) next,
    (i < j)%nat /\ events track !! j = Some next /\ d = tick next.
Proof.
  revert i. induction rest as [|e rest IH]; intros i.
  - simpl. by intros ?%elem_of_nil.
  - rewrite get_note_info_loop_cons.
    assert (Hrec : (p, d, tk) ∈ (get_note_info_loop track (S i) rest).1 ->
                   exists (j : nat) next,
                     (i < j)%nat /\ events track !! j = Some next /\ d = tick next).
    { intros (j & next & Hj & Hn & Hd)%IH. exists j, next. split_and!; [lia|done..]. }
    destruct e as [tk' p' v'| | |]; try done.
    destruct (events track !! (i + 1)%nat) as [next|] eqn:Hnext; simpl.
    + intros [Heq|Hin]%elem_of_cons; [|by apply Hrec].
      injection Heq as -> -> ->. exists (i + 1)%nat, next. split_and!; [lia|done..].
    + by intros ?%elem_of_nil.
Qed.

(** X8.  In the output of the Tick Sorter every delta after the first is
    non-negative, so every duration the Note Sequencer reads off a sorted
    track, as [fractalize_track] does, is non-negative, whatever the order
    and the deltas of the input were. *)
Theorem sorted_durations_nonneg (track : Track Z) :
  Forall (fun e => 0 <= tick e) (tail (events (sort_ticks track)))
  /\ Forall (fun note => 0 <= note.1.2) (get_note_info (sort_ticks track)).1.
Proof.
  split; [apply sort_ticks_deltas|].
  apply Forall_forall. intros [[p d] tk] Hin. simpl.
  apply get_note_info_loop_duration in Hin as (j & next & Hj & Hn & ->).
  pose proof (sort_ticks_deltas track) as Hd.
  destruct (events (sort_ticks track)) as [|e es]; [done|].
  destruct j as [|j]; [lia|]. simpl in *.
  rewrite Forall_forall in Hd. apply Hd. by eapply list_elem_of_lookup_2.
Qed.

Section ModeIndependence.
Context {F : Type} `{FloatArith F}.

(** X9.  The mode of the input does not matter: the Tick Sorter, and with it
    [fractalize_track], gives the same result on a track, on its conversion
    to absolute ticks and on its conversion to relative ticks. *)
Theorem fractalize_track_any_mode (resolution : Z) (track : Track Z) :
  sort_ticks (make_ticks_abs track) = sort_ticks track
  /\ sort_ticks (make_ticks_rel track) = sort_ticks track
  /\ fractalize_track (F := F) resolution (make_ticks_abs track)
     = fractalize_track resolution track
  /\ fractalize_track (F := F) resolution (make_ticks_rel track)
     = fractalize_track resolution track.
Proof.
  assert (Habs : sort_ticks (make_ticks_abs track) = sort_ticks track)
    by apply sort_ticks_of_abs, make_ticks_abs_idempotent.
  assert (Hrel : sort_ticks (make_ticks_rel track) = sort_ticks track)
    by apply sort_ticks_of_abs, make_ticks_abs_rel.
  split_and!; [done|done|..]; unfold fractalize_track; by rewrite ?Habs, ?Hrel.
Qed.

(** X10.  The Ratio Calculator depends on the interval only: transposing the
    root and the pitch by the same number of semitones gives the same
    outcome.  It raises [TypeError] exactly for the root [None] of a track
    without NoteOn event; for a root that is a pitch the only exception is
    the [OverflowError] of the power. *)
Theorem get_ratio_interval (root pitch k : Z) :
  get_ratio (F := F) (Some (root + k)) (pitch + k) = get_ratio (Some root) pitch
  /\ (forall root' : option Z,
        get_ratio (F := F) root' pitch = Raise TypeError <-> root' = None)
  /\ (forall e, get_ratio (F := F) (Some root) pitch = Raise e ->
        e = OverflowError).
Proof.
  unfold get_ratio. split_and!.
  - by replace (pitch + k - (root + k)) with (pitch - root) by lia.
  - intros [r|]; [|done]. by destruct (fpow _ _).
  - intros e. destruct (fpow _ _); [done|]. by intros [= <-].
Qed.
End ModeIndependence.

(** ** How fractalize_track fails *)

Lemma rel_from_fmap {T B : Type} `{TickArith T} (f : Event T -> B)
    (running : T) (es : list (Event T)) :
  (forall e t, f (set_tick e t) = f e) ->
  f <$> rel_from running es = f <$> es.
Proof.
  intros Hf. revert running.
  induction es as [|e es IH]; intros running; simpl; [done|].
  by rewrite Hf, IH.
Qed.

Lemma abs_from_fmap {T B : Type} `{TickArith T} (f : Event T -> B)
    (running : T) (es : list (Event T)) :
  (forall e t, f (set_tick e t) = f e) ->
  f <$> abs_from running es = f <$> es.
Proof.
  intros Hf. revert running.
  induction es as [|e es IH]; intros running; simpl; [done|].
  by rewrite Hf, IH.
Qed.

Lemma sorted_last_max {A : Type} (key : A -> Z) (l : list A) (m : A) :
  StronglySorted (key_le key) l -> last l = Some m ->
  Forall (fun x => key x <= key m) l.
Proof.
  induction 1 as [|x l Hl IH Hx]; intros Hlast; [done|].
  rewrite last_cons in Hlast.
  destruct (last l) as [y|] eqn:Hy.
  - injection Hlast as ->. constructor; [|by apply IH].
    rewrite Forall_forall in Hx. apply Hx. by eapply last_Some_elem_of.
  - injection Hlast as ->. apply last_None in Hy as ->.
    constructor; [lia|constructor].
Qed.

(** A NoteOn event at the greatest absolute tick ends up last in the sorted
    track. *)
Lemma sort_ticks_ends_with_NoteOn (track : Track Z) (e : Event Z) :
  e ∈ events (make_ticks_abs track) -> is_NoteOn e = true ->
  Forall (fun e' => tick e' <= tick e) (events (make_ticks_abs track)) ->
  ends_with_NoteOn (sort_ticks track) = true.
Proof.
  intros Hin Hon Hmax. unfold ends_with_NoteOn, sort_ticks; simpl.
  set (S := sorted sort_key (events (make_ticks_abs track))).
  assert (Hperm : S ≡ₚ events (make_ticks_abs track)) by apply sorted_Permutation.
  assert (Hl : is_NoteOn <$> last (rel_from 0 S) = is_NoteOn <$> last S).
  { rewrite <- !fmap_last. f_equal. apply rel_from_fmap.
    intros; apply is_NoteOn_set_tick. }
  assert (Hm : exists m, last S = Some m) .
  { apply last_is_Some. intros HS. rewrite <- Hperm, HS in Hin.
    by apply elem_of_nil in Hin. }
  destruct Hm as [m Hm].
  assert (Hmon : is_NoteOn m = true).
  { pose proof (sorted_last_max sort_key S m
                  (sorted_StronglySorted _ _) Hm) as Hkeys.
    rewrite Forall_forall in Hkeys, Hmax.
    assert (He : sort_key e <= sort_key m) by (apply Hkeys; by rewrite Hperm).
    assert (Ht : tick m <= tick e).
    { apply Hmax. rewrite <- Hperm. by eapply last_Some_elem_of. }
    unfold sort_key in He. rewrite Hon in He.
    destruct (is_NoteOn m); [done|]. simpl in He. lia. }
  rewrite Hm in Hl. simpl in Hl.
  destruct (last (rel_from 0 S)) as [x|]; simpl in *; [|done].
  congruence.
Qed.

Lemma ends_with_NoteOn_stop (track : Track Z) :
  ends_with_NoteOn track = true ->
  (get_note_info track).2 = Some IndexError.
Proof.
  unfold ends_with_NoteOn. intros Hend.
  destruct (last (events track)) as [e|] eqn:Hlast; [|done].
  apply (get_note_info_loop_out_of_range track [] (events track) e); try done.
  intros Hnil. by rewrite Hnil in Hlast.
Qed.

Section Failures.
Context {F : Type} `{FloatArith F}.

Lemma reduce_loop_stop (f_note : Z * Z * Z -> result (Track F))
    (acc : Track F) (notes : list (Z * Z * Z)) (e : exn) :
  is_Ok (reduce_loop f_note acc notes (Some e)) = false.
Proof.
  revert acc. induction notes as [|n ns IH]; intros acc; simpl; [done|].
  destruct (f_note n); simpl; [apply IH|done].
Qed.

Lemma reduce_add_stop (f_note : Z * Z * Z -> result (Track F))
    (notes : list (Z * Z * Z)) (e : exn) :
  is_Ok (reduce_add f_note (notes, Some e)) = false.
Proof.
  destruct notes as [|n ns]; simpl; [done|].
  destruct (f_note n); simpl; [apply reduce_loop_stop|done].
Qed.

Lemma bind_not_Ok {A B : Type} (r : result A) (k : A -> result B) :
  is_Ok r = false -> is_Ok (bind r k) = false.
Proof. by destruct r. Qed.

(** X11.  With resolution 0 [fractalize_track] never returns a track: every
    run ends in an exception (the division of a duration by the resolution,
    when no earlier step has failed). *)
Theorem fractalize_track_resolution_0 (track : Track Z) :
  is_Ok (fractalize_track (F := F) 0 track) = false.
Proof.
  rewrite fractalize_track_unfold; cbv zeta.
  destruct (getitem_last _) as [last_event|]; simpl; [|done].
  apply bind_not_Ok.
  destruct (get_note_info (sort_ticks track)) as [[|[[p d] tk] ns] [stop|]];
    simpl; done.
Qed.

(** X12.  A NoteOn event at the greatest absolute tick of the track (no
    event is later) makes [fractalize_track] fail: the sorter puts a NoteOn
    event last, and the Note Sequencer has no next event to read its
    duration from. *)
Theorem fractalize_track_trailing_NoteOn (resolution : Z) (track : Track Z)
    (e : Event Z) :
  e ∈ events (make_ticks_abs track) ->
  is_NoteOn e = true ->
  Forall (fun e' => tick e' <= tick e) (events (make_ticks_abs track)) ->
  ends_with_NoteOn (sort_ticks track) = true
  /\ is_Ok (fractalize_track (F := F) resolution track) = false.
Proof.
  intros Hin Hon Hmax.
  pose proof (sort_ticks_ends_with_NoteOn track e Hin Hon Hmax) as Hend.
  split; [done|].
  rewrite fractalize_track_unfold; cbv zeta.
  destruct (getitem_last _) as [last_event|]; simpl; [|done].
  apply bind_not_Ok.
  apply ends_with_NoteOn_stop in Hend.
  destruct (get_note_info (sort_ticks track)) as [notes stop].
  simpl in Hend. subst stop. apply reduce_add_stop.
Qed.
End Failures.

Lemma fractalize_track_trailing_NoteOn_witness :
  let track := mkTrack [NoteOnEvent 0 60 100; NoteOffEvent 96 60 0;
                        EndOfTrackEvent 0; NoteOnEvent 0 62 100] true in
  events (sort_ticks track)
  = [NoteOnEvent 0 60 100; NoteOffEvent 96 60 0;
     EndOfTrackEvent 0; NoteOnEvent 0 62 100]
  /\ is_Ok (fractalize_track (F := Qc) 96 track) = false.
Proof.
  intros track. split; [reflexivity|].
  refine (proj2 (fractalize_track_trailing_NoteOn (F := Qc) 96 track
                   (NoteOnEvent 96 62 100) _ _ _)).
  - apply list_elem_of_In. simpl. tauto.
  - reflexivity.
  - simpl. repeat constructor; simpl; lia.
Defined.

Lemma get_root_loop_None_inv {T : Type} (es : list (Event T)) :
  get_root_loop es = None -> no_NoteOn es.
Proof.
  induction es as [|e es IH]; simpl; [constructor|].
  destruct e; try done; intros Hes; (constructor; [done|by apply IH]).
Qed.

Lemma sort_ticks_no_NoteOn_inv (track : Track Z) :
  no_NoteOn (events (sort_ticks track)) -> no_NoteOn (events track).
Proof.
  assert (Hiff : forall es : list (Event Z),
            no_NoteOn es <-> Forall (fun b => b = false) (is_NoteOn <$> es)).
  { intros es. unfold no_NoteOn. by rewrite Forall_fmap. }
  rewrite !Hiff. unfold sort_ticks; simpl.
  rewrite rel_from_fmap by (intros; apply is_NoteOn_set_tick).
  rewrite sorted_Permutation.
  unfold make_ticks_abs. destruct (relative track); simpl; [|done].
  by rewrite abs_from_fmap by (intros; apply is_NoteOn_set_tick).
Qed.

Lemma get_note_info_loop_silent (track : Track Z) (i : nat) rest :
  get_note_info_loop track i rest = ([], None) -> no_NoteOn rest.
Proof.
  revert i. induction rest as [|e rest IH]; intros i; [constructor|].
  rewrite get_note_info_loop_cons.
  destruct e as [tk p v| | |];
    try (intros Hrec; constructor; [done|by eapply IH]).
  by destruct (events track !! (i + 1)%nat).
Qed.

Lemma get_note_info_loop_IndexError (track : Track Z) (i : nat) rest e :
  (get_note_info_loop track i rest).2 = Some e -> e = IndexError.
Proof.
  revert i. induction rest as [|x rest IH]; intros i; [done|].
  rewrite get_note_info_loop_cons.
  destruct x as [tk p v| | |]; try apply IH.
  destruct (events track !! (i + 1)%nat); simpl; [apply IH|congruence].
Qed.

Lemma split_header_relative {T : Type} (track : Track T) :
  relative (split_header_meta_events track).1 = relative track.
Proof.
  unfold split_header_meta_events.
  by destruct (first_non_meta 0 (events track)).
Qed.

Lemma split_header_app {T : Type} (track : Track T) :
  events (split_header_meta_events track).1
  ++ events (split_header_meta_events track).2 = events track.
Proof.
  unfold split_header_meta_events.
  destruct (first_non_meta 0 (events track)); simpl; [apply take_drop|done].
Qed.

Lemma split_body_last {T : Type} (track : Track T) (e : Event T) :
  last (events (split_header_meta_events track).2) = Some e ->
  last (events track) = Some e.
Proof.
  intros Hlast. rewrite <- split_header_app, last_app. by rewrite Hlast.
Qed.

(** X13.  On a track that has a NoteOn event, neither [TypeError] of the
    script's own statements can occur in [fractalize_track]: the root of the
    sorted track is a pitch, so [get_ratio] is never given [None]; and the
    Note Sequencer on the sorted track yields a tuple or ends in
    [IndexError], so [reduce] is never given a sequence that ends empty
    without an exception. *)
Theorem melody_has_root_and_notes (track : Track Z) (e : Event Z) :
  e ∈ events track -> is_NoteOn e = true ->
  (exists root, get_root (sort_ticks track) = Some root)
  /\ ((get_note_info (sort_ticks track)).1 <> []
      \/ (get_note_info (sort_ticks track)).2 = Some IndexError).
Proof.
  intros Hin Hon.
  assert (Hsome : ~ no_NoteOn (events (sort_ticks track))).
  { intros Hno%sort_ticks_no_NoteOn_inv.
    unfold no_NoteOn in Hno. rewrite Forall_forall in Hno.
    specialize (Hno e Hin). congruence. }
  split.
  - destruct (get_root (sort_ticks track)) as [root|] eqn:Hroot; [by eexists|].
    destruct Hsome. by apply get_root_loop_None_inv.
  - destruct (get_note_info (sort_ticks track)) as [notes stop] eqn:Hgen.
    simpl. destruct notes as [|n ns]; [|by left]. right.
    destruct stop as [x|].
    + pose proof (get_note_info_loop_IndexError (sort_ticks track) 0
                    (events (sort_ticks track)) x) as Hix.
      unfold get_note_info in Hgen. rewrite Hgen in Hix.
      by rewrite (Hix eq_refl).
    + destruct Hsome. by eapply get_note_info_loop_silent.
Qed.

Lemma melody_has_root_and_notes_witness :
  let track := mkTrack [MetaEvent 0 3 []; NoteOnEvent 0 64 100;
                        NoteOffEvent 96 64 0; NoteOnEvent 0 60 100] true in
  (exists root, get_root (sort_ticks track) = Some root)
  /\ ((get_note_info (sort_ticks track)).1 <> []
      \/ (get_note_info (sort_ticks track)).2 = Some IndexError).
Proof.
  intros track.
  refine (melody_has_root_and_notes track (NoteOnEvent 0 64 100) _ _).
  - apply list_elem_of_In. simpl. tauto.
  - reflexivity.
Defined.

Section Outcome.
Context {F : Type} `{FloatArith F}.

Lemma track_truediv_Ok_nonempty (t t' : Track F) (ratio : F) :
  track_truediv t ratio = Ok t' -> events t <> [] -> t' = scale t ratio.
Proof.
  unfold track_truediv. destruct (events t); [done|].
  destruct (fis_zero ratio); [done|]. by intros [= <-].
Qed.

(** X14.  A track that [fractalize_track] returns is in relative ticks and
    starts with the header of the sorted input: its leading MetaEvents, in
    their order and with their ticks. *)
Theorem fractalize_track_header (resolution : Z) (track : Track Z)
    (out : Track F) :
  fractalize_track resolution track = Ok out ->
  relative out = true
  /\ exists rest,
       events out
       = (float_event <$>
            events (split_header_meta_events (sort_ticks track)).1) ++ rest.
Proof.
  rewrite fractalize_track_unfold; cbv zeta.
  destruct (getitem_last _) as [last_event|]; simpl; [|done].
  destruct (reduce_add _ _) as [fractal|]; simpl; [|done].
  destruct (int_truediv _ _) as [q|]; simpl; [|done].
  destruct (track_truediv _ _) as [fractal'|]; simpl; [|done].
  intros [= <-]. unfold track_add.
  assert (Hrel : relative
                   (float_track (F := F)
                      (split_header_meta_events (sort_ticks track)).1) = true).
  { simpl. by rewrite split_header_relative. }
  rewrite Hrel. split; [done|]. by eexists.
Qed.

(** X15.  When the sorted input ends with its EndOfTrack event, so does the
    track that [fractalize_track] returns: the event is taken off the body
    before the notes are fractalized and put back after the last block. *)
Theorem fractalize_track_EndOfTrack (resolution : Z) (track : Track Z)
    (out : Track F) :
  fractalize_track resolution track = Ok out ->
  ends_with_EndOfTrack (sort_ticks track) = true ->
  ends_with_EndOfTrack out = true.
Proof.
  rewrite fractalize_track_unfold; cbv zeta.
  unfold getitem_last.
  destruct (last (events (split_header_meta_events (sort_ticks track)).2))
    as [last_event|] eqn:Hlast; simpl; [|done].
  destruct (reduce_add _ _) as [fractal|]; simpl; [|done].
  destruct (int_truediv _ _) as [q|]; simpl; [|done].
  intros Hout Hend.
  apply split_body_last in Hlast.
  unfold ends_with_EndOfTrack in Hend. rewrite Hlast in Hend. simpl in Hend.
  rewrite Hend in Hout.
  destruct (track_truediv _ _) as [fractal'|] eqn:Hdiv; simpl in Hout; [|done].
  apply track_truediv_Ok_nonempty in Hdiv;
    [|simpl; intros Hnil; by apply app_nil in Hnil as [_ ?]].
  subst fractal'. injection Hout as <-.
  unfold ends_with_EndOfTrack, track_add.
  assert (Hrel : relative
                   (float_track (F := F)
                      (split_header_meta_events (sort_ticks track)).1) = true).
  { simpl. by rewrite split_header_relative. }
  rewrite Hrel. simpl. rewrite last_app.
  set (X := scale _ _).
  assert (HX : is_EndOfTrack <$> last (events X) = Some true).
  { unfold X, scale, append. cbn [events].
    rewrite fmap_last, last_snoc. simpl. f_equal.
    by destruct last_event. }
  assert (HR : is_EndOfTrack <$> last (events (make_ticks_rel X)) = Some true).
  { unfold make_ticks_rel. destruct (relative X); [done|]. simpl.
    rewrite <- fmap_last, rel_from_fmap, fmap_last; [done|].
    by intros []. }
  destruct (last (events (make_ticks_rel X))) as [y|]; simpl in *; [|done].
  congruence.
Qed.
End Outcome.

Lemma fractalize_track_header_witness :
  let track := mkTrack [MetaEvent 0 3 []; NoteOnEvent 0 60 100;
                        NoteOffEvent 12 60 0; EndOfTrackEvent 0] true in
  let out := mkTrack [MetaEvent (Qc_of_Z 0) 3 []; NoteOnEvent (Qc_of_Z 0) 60 100;
                      NoteOffEvent (Qc_of_Z 6) 60 0;
                      NoteOnEvent (Qc_of_Z 0) 60 100;
                      NoteOffEvent (Qc_of_Z 6) 60 0;
                      EndOfTrackEvent (Qc_of_Z 0)] true in
  fractalize_track (F := Qc) 96 track = Ok out
  /\ relative out = true
  /\ exists rest, events out = [MetaEvent (Qc_of_Z 0) 3 []] ++ rest.
Proof.
  intros track out.
  assert (Hrun : fractalize_track (F := Qc) 96 track = Ok out) by by_evaluation.
  split; [exact Hrun|].
  exact (fractalize_track_header (F := Qc) 96 track out Hrun).
Defined.

Lemma fractalize_track_EndOfTrack_witness :
  let track := mkTrack [NoteOnEvent 0 60 100; NoteOffEvent 12 60 0;
                        EndOfTrackEvent 0] true in
  let out := mkTrack [NoteOnEvent (Qc_of_Z 0) 60 100;
                      NoteOffEvent (Qc_of_Z 6) 60 0;
                      NoteOnEvent (Qc_of_Z 0) 60 100;
                      NoteOffEvent (Qc_of_Z 6) 60 0;
                      EndOfTrackEvent (Qc_of_Z 0)] true in
  fractalize_track (F := Qc) 96 track = Ok out
  /\ ends_with_EndOfTrack out = true.
Proof.
  intros track out.
  assert (Hrun : fractalize_track (F := Qc) 96 track = Ok out) by by_evaluation.
  split; [exact Hrun|].
  exact (fractalize_track_EndOfTrack (F := Qc) 96 track out Hrun eq_refl).
Defined.

(** ** Properties of event contents carried through the modelled track
    operations *)

Lemma content_set_tick {T U : Type} (e : Event T) (t : U) :
  content (set_tick e t) = content e.
Proof. apply set_tick_set_tick. Qed.

Section Contents.
Context (Q : Event unit -> Prop).

Lemma all_contents_fmap_set_tick {T U : Type} (g : Event T -> U)
    (es : list (Event T)) :
  all_contents Q es -> all_contents Q ((fun e => set_tick e (g e)) <$> es).
Proof.
  unfold all_contents. intros Hes. apply Forall_fmap.
  eapply Forall_impl; [exact Hes|]. intros e He; simpl.
  by rewrite content_set_tick.
Qed.

Lemma all_contents_abs_from {T : Type} `{TickArith T} (running : T)
    (es : list (Event T)) :
  all_contents Q es -> all_contents Q (abs_from running es).
Proof.
  apply abs_from_Forall. intros e t He. by rewrite content_set_tick.
Qed.

Lemma all_contents_rel_from {T : Type} `{TickArith T} (running : T)
    (es : list (Event T)) :
  all_contents Q es -> all_contents Q (rel_from running es).
Proof.
  apply rel_from_Forall. intros e t He. by rewrite content_set_tick.
Qed.

Lemma all_contents_make_ticks_abs {T : Type} `{TickArith T} (t : Track T) :
  all_contents Q (events t) -> all_contents Q (events (make_ticks_abs t)).
Proof.
  unfold make_ticks_abs. destruct (relative t); simpl; [|done].
  apply all_contents_abs_from.
Qed.

Lemma all_contents_make_ticks_rel {T : Type} `{TickArith T} (t : Track T) :
  all_contents Q (events t) -> all_contents Q (events (make_ticks_rel t)).
Proof.
  unfold make_ticks_rel. destruct (relative t); simpl; [done|].
  apply all_contents_rel_from.
Qed.

Lemma all_contents_take_while {T : Type} (p : Event T -> bool)
    (es : list (Event T)) :
  all_contents Q es -> all_contents Q (take_while p es).
Proof.
  induction 1 as [|e es He _ IH]; simpl; [constructor|].
  destruct (p e); by constructor.
Qed.

Lemma all_contents_removelast {T : Type} (es : list (Event T)) :
  all_contents Q es -> all_contents Q (removelast es).
Proof.
  induction 1 as [|e es He Hes IH]; simpl; [constructor|].
  destruct es; [constructor|]. by constructor.
Qed.

Lemma all_contents_sort_ticks (track : Track Z) :
  all_contents Q (events track) -> all_contents Q (events (sort_ticks track)).
Proof.
  intros Ht. unfold sort_ticks; simpl.
  apply all_contents_rel_from. unfold all_contents.
  rewrite sorted_Permutation. by apply all_contents_make_ticks_abs.
Qed.

Section FloatContents.
Context {F : Type} `{FloatArith F}.

Lemma all_contents_shift (d : F) (es : list (Event F)) :
  all_contents Q es -> all_contents Q (shift d es).
Proof. apply (all_contents_fmap_set_tick (fun e => fadd (tick e) d)). Qed.

Lemma all_contents_float_track (t : Track Z) :
  all_contents Q (events t) -> all_contents Q (events (float_track (F := F) t)).
Proof. apply (all_contents_fmap_set_tick (fun e => of_int (tick e))). Qed.

Lemma all_contents_track_truediv (t t' : Track F) (ratio : F) :
  track_truediv t ratio = Ok t' ->
  all_contents Q (events t) -> all_contents Q (events t').
Proof.
  unfold track_truediv. destruct (events t) as [|e es] eqn:Hes.
  - intros [= <-]. by rewrite Hes.
  - destruct (fis_zero ratio); [done|]. intros [= <-] Ht. simpl. rewrite Hes.
    by apply (all_contents_fmap_set_tick (fun e => fdiv (tick e) ratio)).
Qed.

Lemma all_contents_track_pow (t : Track F) (n : F) :
  all_contents Q (events t) -> all_contents Q (events (track_pow t n)).
Proof.
  intros Ht.
  assert (Hrep : all_contents Q (repeat_events t n)).
  { unfold repeat_events. apply Forall_app. split.
    - apply Forall_concat, Forall_fmap, Forall_true. intros i.
      by apply all_contents_shift, all_contents_make_ticks_abs.
    - destruct (fltb _ _); [|constructor].
      by apply all_contents_shift, all_contents_take_while,
        all_contents_make_ticks_abs. }
  unfold track_pow. destruct (relative t); [|done].
  by apply (all_contents_make_ticks_rel (mkTrack (repeat_events t n) false)).
Qed.

Lemma all_contents_track_add (x y : Track F) :
  all_contents Q (events x) -> all_contents Q (events y) ->
  all_contents Q (events (track_add x y)).
Proof.
  intros Hx Hy. unfold track_add. destruct (relative x); simpl.
  - apply Forall_app. split; [done|]. by apply all_contents_make_ticks_rel.
  - apply Forall_app. split; [done|].
    by apply all_contents_shift, all_contents_make_ticks_abs.
Qed.

Lemma all_contents_fractalize_note (resolution : Z)
    (ratio_fn : Z -> result F) (track : Track Z) (note : Z * Z * Z)
    (out : Track F) :
  all_contents Q (events track) ->
  fractalize_note resolution ratio_fn track note = Ok out ->
  all_contents Q (events out).
Proof.
  intros Ht. destruct note as [[p d] tk]. unfold fractalize_note.
  destruct (int_truediv d resolution) as [q|]; simpl; [|done].
  destruct (ratio_fn p) as [ratio|]; simpl; [|done].
  destruct (track_truediv _ _) as [scaled|] eqn:Hdiv; simpl; [|done].
  destruct (int_truediv tk resolution) as [onset|]; simpl; [|done].
  apply all_contents_track_truediv in Hdiv;
    [|by apply all_contents_float_track].
  pose proof (all_contents_track_pow scaled
                (fmul (fmul (of_int Q_NOTE_PHRASE_LEN) q) ratio) Hdiv) as Hpow.
  unfold set_first_tick.
  destruct (events (track_pow _ _)) as [|e es]; [done|].
  intros [= <-]. simpl.
  apply Forall_cons in Hpow as [He Hes].
  constructor; [by rewrite content_set_tick|done].
Qed.

Lemma all_contents_reduce_loop (f_note : Z * Z * Z -> result (Track F))
    (acc : Track F) (notes : list (Z * Z * Z)) (stop : option exn)
    (out : Track F) :
  (forall n y, f_note n = Ok y -> all_contents Q (events y)) ->
  all_contents Q (events acc) ->
  reduce_loop f_note acc notes stop = Ok out ->
  all_contents Q (events out).
Proof.
  intros Hf. revert acc.
  induction notes as [|n ns IH]; intros acc Hacc; simpl.
  - destruct stop; [done|]. by intros [= <-].
  - destruct (f_note n) as [y|] eqn:Hy; simpl; [|done].
    apply IH. apply all_contents_track_add; [done|by eapply Hf].
Qed.

Lemma all_contents_reduce_add (f_note : Z * Z * Z -> result (Track F))
    (gen : Generator (Z * Z * Z)) (out : Track F) :
  (forall n y, f_note n = Ok y -> all_contents Q (events y)) ->
  reduce_add f_note gen = Ok out ->
  all_contents Q (events out).
Proof.
  intros Hf. destruct gen as [[|n ns] stop]; simpl.
  - by destruct stop.
  - destruct (f_note n) as [x|] eqn:Hx; simpl; [|done].
    apply all_contents_reduce_loop; [done|by eapply Hf].
Qed.

(** Whatever holds of the content of every event of the input holds of the
    content of every event of the track [fractalize_track] returns. *)
Lemma all_contents_fractalize_track (resolution : Z) (track : Track Z)
    (out : Track F) :
  all_contents Q (events track) ->
  fractalize_track resolution track = Ok out ->
  all_contents Q (events out).
Proof.
  intros Ht%all_contents_sort_ticks.
  rewrite fractalize_track_unfold; cbv zeta.
  unfold all_contents in Ht.
  rewrite <- (split_header_app (sort_ticks track)) in Ht.
  apply Forall_app in Ht as [Hheader Hbody].
  unfold getitem_last.
  destruct (last (events (split_header_meta_events (sort_ticks track)).2))
    as [last_event|] eqn:Hlast; simpl; [|done].
  assert (Hlast_event : Q (content last_event)).
  { rewrite Forall_forall in Hbody. apply Hbody.
    by eapply last_Some_elem_of. }
  destruct (reduce_add _ _) as [fractal|] eqn:Hred; simpl; [|done].
  apply all_contents_reduce_add in Hred.
  2: { intros n y. apply all_contents_fractalize_note.
       destruct (is_EndOfTrack last_event); [|done].
       by apply all_contents_removelast. }
  destruct (int_truediv _ _) as [q|]; simpl; [|done].
  destruct (track_truediv _ _) as [fractal'|] eqn:Hdiv; simpl; [|done].
  intros [= <-].
  apply all_contents_track_add; [by apply all_contents_float_track|].
  eapply all_contents_track_truediv; [exact Hdiv|].
  destruct (is_EndOfTrack last_event); [|done].
  unfold append; simpl. apply Forall_app. split; [done|].
  constructor; [|constructor]. unfold float_event. by rewrite content_set_tick.
Qed.
End FloatContents.
End Contents.

Lemma is_silent_NoteOn_content {T : Type} (e : Event T) :
  is_silent_NoteOn (content e) = is_silent_NoteOn e.
Proof. by destruct e. Qed.

Section Kept.
Context {F : Type} `{FloatArith F}.

(** X18.  The track the driver computes holds no NoteOn event of velocity 0:
    the Note Normalizer removes them from the input and fractalization
    brings none back. *)
Theorem main_no_silent_NoteOn (resolution : Z) (first_track : Track Z)
    (out : Track F) :
  main resolution first_track = Ok out ->
  Forall (fun e => is_silent_NoteOn e = false) (events out).
Proof.
  unfold main; cbv zeta. intros Hout.
  pose proof (all_contents_fractalize_track
                (fun c => is_silent_NoteOn c = false)
                resolution (fix_mary first_track) out) as Hkeep.
  eapply Forall_impl; [apply Hkeep; [|exact Hout]|].
  - unfold fix_mary; simpl. rewrite fix_mary_loop_fmap.
    apply Forall_fmap, Forall_true. intros e; simpl.
    rewrite is_silent_NoteOn_content. apply fix_event_not_silent.
  - intros e; simpl. by rewrite is_silent_NoteOn_content.
Qed.
End Kept.

Lemma main_no_silent_NoteOn_witness :
  let track := mkTrack [NoteOnEvent 0 60 100; NoteOnEvent 12 60 0;
                        EndOfTrackEvent 0] true in
  let out := mkTrack [NoteOnEvent (Qc_of_Z 0) 60 100;
                      NoteOffEvent (Qc_of_Z 6) 60 0;
                      NoteOnEvent (Qc_of_Z 0) 60 100;
                      NoteOffEvent (Qc_of_Z 6) 60 0;
                      EndOfTrackEvent (Qc_of_Z 0)] true in
  main (F := Qc) 96 track = Ok out
  /\ Forall (fun e => is_silent_NoteOn e = false) (events out).
Proof.
  intros track out.
  assert (Hrun : main (F := Qc) 96 track = Ok out) by by_evaluation.
  split; [exact Hrun|].
  exact (main_no_silent_NoteOn (F := Qc) 96 track out Hrun).
Defined.
